(** * Detector nodes of the flooder: ownership queries and radius bookkeeping

    A shallow embedding of [pymatching/fill_match/flooder/detector_node.cc]:
    [compute_wrapped_radius], [local_radius], [has_same_owner_as], [reset]
    and [index_of_neighbor], over an explicit store of growth regions. *)

From Stdlib Require Import ZArith Lia String.
From stdpp Require Import base option list gmap.

Local Open Scope Z_scope.

(** ** 32-bit signed arithmetic

    [int32_t] values are integers in [-2^31, 2^31); sums and differences
    wrap around. *)
Module Int32.

Definition modulus : Z := 2 ^ 32.
Definition half_modulus : Z := 2 ^ 31.

Definition wrap (x : Z) : Z := (x + half_modulus) mod modulus - half_modulus.

Definition in_range (x : Z) : Prop := - half_modulus <= x < half_modulus.

Definition add (a b : Z) : Z := wrap (a + b).
Definition sub (a b : Z) : Z := wrap (a - b).

End Int32.

(** ** Results of fallible operations

    [index_of_neighbor] throws [std::invalid_argument]; the ancestor walk
    dereferences region pointers and need not terminate on a cyclic store, so
    it runs on fuel and reports the exhaustion. *)
Inductive error : Type :=
  | InvalidArgument (what : string)
  | BadDereference
  | OutOfFuel.

Inductive result (A : Type) : Type :=
  | Ok (a : A)
  | Err (e : error).
Arguments Ok {A} a.
Arguments Err {A} e.

#[global] Instance result_ret : MRet result := λ A a, Ok a.
#[global] Instance result_bind : MBind result := λ A B k r,
  match r with
  | Ok a => k a
  | Err e => Err e
  end.

(** ** Data model *)

(** Addresses of heap objects; a pointer is [None] when it is [nullptr]. *)
Abbreviation region_ptr := (option positive).
Abbreviation node_ptr := (option positive).

(** Modelled from the spec: the varying quantity [Varying32] of the missing
    header [varying.h], a radius that is a linear function of the simulation
    time, [value(t) = intercept + rate * t]. *)
Record Varying32 : Type := mkVarying32 {
  y_intercept : Z;
  slope : Z;
}.

(** Modelled from the spec: [Varying32{0}] (missing header [varying.h]), the
    constant zero. *)
Definition Varying32_zero : Varying32 :=
  {| y_intercept := 0; slope := 0 |}.

(** Modelled from the spec: [Varying32::operator+(int32_t)] (missing header
    [varying.h]), which shifts the line by a constant; the intercept is taken
    to be a 32-bit integer like the offset. *)
Definition varying_add (v : Varying32) (offset : Z) : Varying32 :=
  {| y_intercept := Int32.add (y_intercept v) offset; slope := slope v |}.

(** Modelled from the spec: the value of the line at time [t] (missing
    header [varying.h]). *)
Definition get_distance_at_time (v : Varying32) (t : Z) : Z :=
  Int32.wrap (y_intercept v + slope v * t).

(** Modelled from the spec: the fields of [GraphFillRegion] (missing header
    [graph_fill_region.h]) that the detector node reads: the region's own
    radius and its parent in the blossom forest, null at a root. *)
Record GraphFillRegion : Type := mkGraphFillRegion {
  radius : Varying32;
  blossom_parent : region_ptr;
}.

(** Modelled from the spec: the fields of [DetectorNode] (missing header
    [detector_node.h]), named as [detector_node.cc] uses them; the pending
    events of the node are a set of event handles. *)
Record DetectorNode : Type := mkDetectorNode {
  observables_crossed_from_source : Z;
  reached_from_source : node_ptr;
  radius_of_arrival : Z;
  region_that_arrived : region_ptr;
  region_that_arrived_top : region_ptr;
  accumulated_radius_cached : Z;
  node_event_tracker : gset Z;
  neighbors : list node_ptr;
  neighbor_weights : list Z;
  neighbor_observables : list Z;
}.

(** The store of growth regions that region pointers point into. *)
Abbreviation region_store := (gmap positive GraphFillRegion).

Definition deref (h : region_store) (r : region_ptr) : result GraphFillRegion :=
  match r with
  | Some a =>
      match h !! a with
      | Some reg => Ok reg
      | None => Err BadDereference
      end
  | None => Err BadDereference
  end.

(** ** Operations of [detector_node.cc] *)

(** The loop of [compute_wrapped_radius]:
    [while (r != region_that_arrived_top) { total += r->radius.y_intercept(); r = r->blossom_parent; }].
    The second component of the state counts the iterations made. *)
Fixpoint wrapped_radius_loop (fuel : nat) (h : region_store) (top r : region_ptr)
    (total : Z) (iterations : nat) : result (Z * nat) :=
  if decide (r = top) then Ok (total, iterations)
  else
    match fuel with
    | O => Err OutOfFuel
    | S fuel' =>
        reg ← deref h r ;
        wrapped_radius_loop fuel' h top (blossom_parent reg)
          (Int32.add total (y_intercept (radius reg))) (S iterations)
    end.

Definition compute_wrapped_radius (fuel : nat) (h : region_store) (n : DetectorNode)
    : result Z :=
  match reached_from_source n with
  | None => Ok 0
  | Some _ =>
      ti ← wrapped_radius_loop fuel h (region_that_arrived_top n)
             (region_that_arrived n) 0 O ;
      Ok (Int32.sub (fst ti) (radius_of_arrival n))
  end.

Definition local_radius (fuel : nat) (h : region_store) (n : DetectorNode)
    : result Varying32 :=
  match region_that_arrived_top n with
  | None => Ok Varying32_zero
  | Some a =>
      top ← deref h (Some a) ;
      w ← compute_wrapped_radius fuel h n ;
      Ok (varying_add (radius top) w)
  end.

Definition has_same_owner_as (n other : DetectorNode) : bool :=
  bool_decide (region_that_arrived_top n = region_that_arrived_top other).

Definition reset (n : DetectorNode) : DetectorNode :=
  {| observables_crossed_from_source := 0;
     reached_from_source := None;
     radius_of_arrival := 0;
     region_that_arrived := None;
     region_that_arrived_top := None;
     accumulated_radius_cached := 0;
     node_event_tracker := ∅;
     neighbors := neighbors n;
     neighbor_weights := neighbor_weights n;
     neighbor_observables := neighbor_observables n |}.

(** The scan [for (k = 0; k < neighbors.size(); k++)] started at position [k]
    of the adjacency list, [ns] being what is left of it. *)
Fixpoint index_of_neighbor_from (k : nat) (ns : list node_ptr) (target : node_ptr)
    : result nat :=
  match ns with
  | [] => Err (InvalidArgument "Failed to find neighbor.")
  | n :: ns' =>
      if decide (n = target) then Ok k
      else index_of_neighbor_from (S k) ns' target
  end.

Definition index_of_neighbor (n : DetectorNode) (target : node_ptr) : result nat :=
  index_of_neighbor_from 0 (neighbors n) target.

(** Modelled from the spec: a freshly constructed, never-activated node (the
    constructor is in the missing header [detector_node.h]): no owner, zero
    radii and observables, no pending event, on a given adjacency. *)
Definition fresh_node (ns : list node_ptr) (ws obs : list Z) : DetectorNode :=
  {| observables_crossed_from_source := 0;
     reached_from_source := None;
     radius_of_arrival := 0;
     region_that_arrived := None;
     region_that_arrived_top := None;
     accumulated_radius_cached := 0;
     node_event_tracker := ∅;
     neighbors := ns;
     neighbor_weights := ws;
     neighbor_observables := obs |}.

(** The ownership invariant of the data model: a node has a top-level owner
    exactly when it has been reached. *)
Definition ownership_invariant (n : DetectorNode) : Prop :=
  region_that_arrived_top n ≠ None ↔ reached_from_source n ≠ None.

(** ** The blossom hierarchy above a node *)

(** [blossom_chain h top r path]: following [blossom_parent] from [r] one
    meets [top], and [path] lists the regions passed before it, [r] first and
    [top] left out; these are the regions whose radii are frozen. *)
Inductive blossom_chain (h : region_store) (top : region_ptr)
    : region_ptr → list GraphFillRegion → Prop :=
  | blossom_chain_top : blossom_chain h top top []
  | blossom_chain_step (a : positive) (reg : GraphFillRegion) (path : list GraphFillRegion) :
      Some a ≠ top →
      h !! a = Some reg →
      blossom_chain h top (blossom_parent reg) path →
      blossom_chain h top (Some a) (reg :: path).

(** [top] is [r] or one of its ancestors in the blossom forest. *)
Inductive reaches (h : region_store) : region_ptr → region_ptr → Prop :=
  | reaches_here (r : region_ptr) : reaches h r r
  | reaches_parent (a : positive) (reg : GraphFillRegion) (top : region_ptr) :
      h !! a = Some reg →
      reaches h (blossom_parent reg) top →
      reaches h (Some a) top.

(** The sum of the frozen radii (y-intercepts) of the regions of a path. *)
Definition frozen_radii (path : list GraphFillRegion) : Z :=
  foldr (λ reg acc, y_intercept (radius reg) + acc) 0 path.

(** [ascends h top r path r']: the walk started at [r] passes the regions of
    [path], none of them [top], and stands at [r'] after them. *)
Inductive ascends (h : region_store) (top : region_ptr)
    : region_ptr → list GraphFillRegion → region_ptr → Prop :=
  | ascends_here (r : region_ptr) : ascends h top r [] r
  | ascends_step (a : positive) (reg : GraphFillRegion) (path : list GraphFillRegion)
      (r' : region_ptr) :
      Some a ≠ top →
      h !! a = Some reg →
      ascends h top (blossom_parent reg) path r' →
      ascends h top (Some a) (reg :: path) r'.

(** The variable [total] of the loop after the regions of [path]. *)
Definition running_total (total : Z) (path : list GraphFillRegion) : Z :=
  foldl (λ acc reg, Int32.add acc (y_intercept (radius reg))) total path.

(** The member functions of [DetectorNode] in [detector_node.cc]. *)
Inductive node_op : Type :=
  | OpComputeWrappedRadius
  | OpLocalRadius
  | OpHasSameOwnerAs (other : DetectorNode)
  | OpReset
  | OpIndexOfNeighbor (target : node_ptr).

(** The node an operation leaves behind: [reset] writes it, the other four
    are [const] member functions. *)
Definition node_after (op : node_op) (n : DetectorNode) : DetectorNode :=
  match op with
  | OpReset => reset n
  | OpComputeWrappedRadius | OpLocalRadius | OpHasSameOwnerAs _
  | OpIndexOfNeighbor _ => n
  end.

(** ** Growth histories

    The flooder code that grows regions and forms blossoms is not part of
    [detector_node.cc]; what follows is its effect on the radius of the
    region hierarchy above one node. *)
Module Growth.

(** Modelled from the spec: what happens over time to the top-level region
    that owns a node (missing [graph_flooder.cc] and [graph_fill_region.cc]).
    [SetRate t rate]: at time [t] the top-level region keeps its current
    radius and goes on at the given rate (+1 growing, 0 frozen or matched,
    -1 shrinking). [Absorb t]: at time [t] the top-level region becomes a
    child of a newly formed blossom. *)
Inductive growth_event : Type :=
  | SetRate (t : Z) (rate : Z)
  | Absorb (t : Z).

(** Modelled from the spec: a radius frozen at its value at time [t] (rate
    set to 0). *)
Definition freeze_at (v : Varying32) (t : Z) : Varying32 :=
  {| y_intercept := get_distance_at_time v t; slope := 0 |}.

(** Modelled from the spec: the line through the value of [v] at time [t]
    that has the given rate. *)
Definition with_rate_at (v : Varying32) (t rate : Z) : Varying32 :=
  {| y_intercept := Int32.sub (get_distance_at_time v t) (rate * t); slope := rate |}.

(** Modelled from the spec: the radius of a blossom formed at time [t]; it
    "starts at the radius where the collision occurred (rate +1, growing)".
    The simulation time is the radius the flood has reached, so the blossom's
    own radius starts its growth there: it is zero at time [t] and grows at
    rate +1, on top of the frozen radii of its children. *)
Definition growing_from_zero_at (t : Z) : Varying32 :=
  {| y_intercept := Int32.wrap (- t); slope := 1 |}.

(** The node with its cached top pointer moved to [top]. *)
Definition set_top (n : DetectorNode) (top : region_ptr) : DetectorNode :=
  {| observables_crossed_from_source := observables_crossed_from_source n;
     reached_from_source := reached_from_source n;
     radius_of_arrival := radius_of_arrival n;
     region_that_arrived := region_that_arrived n;
     region_that_arrived_top := top;
     accumulated_radius_cached := accumulated_radius_cached n;
     node_event_tracker := node_event_tracker n;
     neighbors := neighbors n;
     neighbor_weights := neighbor_weights n;
     neighbor_observables := neighbor_observables n |}.

(** Modelled from the spec: one event on the nested representation (missing
    [graph_flooder.cc]). A rate change rewrites the radius of the top-level
    region. An absorption freezes that radius at its current value, sets its
    [blossom_parent] to a newly allocated blossom whose own radius is
    [growing_from_zero_at t], and moves the node's cached top pointer to the
    blossom. *)
Definition nested_step (ev : growth_event) (s : region_store * DetectorNode)
    : result (region_store * DetectorNode) :=
  let h := s.1 in
  let n := s.2 in
  match region_that_arrived_top n with
  | None => Err BadDereference
  | Some a =>
      top ← deref h (Some a) ;
      match ev with
      | SetRate t rate =>
          Ok (<[a := {| radius := with_rate_at (radius top) t rate;
                        blossom_parent := blossom_parent top |}]> h, n)
      | Absorb t =>
          let b := fresh (dom h) in
          Ok (<[b := {| radius := growing_from_zero_at t; blossom_parent := None |}]>
                (<[a := {| radius := freeze_at (radius top) t;
                           blossom_parent := Some b |}]> h),
              set_top n (Some b))
      end
  end.

(** The events of a history, oldest first, on the nested representation. *)
Fixpoint nested_run (history : list growth_event) (s : region_store * DetectorNode)
    : result (region_store * DetectorNode) :=
  match history with
  | [] => Ok s
  | ev :: rest => s' ← nested_step ev s ; nested_run rest s'
  end.

(** Modelled from the spec: the same event on the flat representation, one
    region that is never nested: its radius follows the rate of the growth
    front, which after an absorption is that of the new blossom, +1. *)
Definition flat_step (ev : growth_event) (v : Varying32) : Varying32 :=
  match ev with
  | SetRate t rate => with_rate_at v t rate
  | Absorb t => with_rate_at v t 1
  end.

(** The events of a history, oldest first, on the flat representation. *)
Definition flat_run (history : list growth_event) (v : Varying32) : Varying32 :=
  foldl (λ acc ev, flat_step ev acc) v history.

(** Modelled from the spec: the directly simulated flat radius at the node at
    time [t], the radius of the single region less the radius at which the
    node was reached. *)
Definition flat_local_radius (v : Varying32) (arrival t : Z) : Z :=
  Int32.sub (get_distance_at_time v t) arrival.

(** The number of nested absorptions of a history. *)
Fixpoint absorptions (history : list growth_event) : nat :=
  match history with
  | [] => O
  | Absorb _ :: rest => S (absorptions rest)
  | SetRate _ _ :: rest => absorptions rest
  end.

(** The nested representation [(h, n)] and the flat radius [v] agree: the
    node is reached at radius [arrival], it sits [depth] blossoms below its
    top-level region, which has the rate of [v], and the radius of that
    region and the frozen radii below it add up to [v]. *)
Definition tracks (h : region_store) (n : DetectorNode) (v : Varying32)
    (arrival : Z) (depth : nat) : Prop :=
  ∃ (a : positive) (root : GraphFillRegion) (path : list GraphFillRegion),
    reached_from_source n ≠ None
    ∧ radius_of_arrival n = arrival
    ∧ region_that_arrived_top n = Some a
    ∧ h !! a = Some root
    ∧ blossom_chain h (Some a) (region_that_arrived n) path
    ∧ length path = depth
    ∧ slope (radius root) = slope v
    ∧ Int32.wrap (y_intercept (radius root) + frozen_radii path)
      = Int32.wrap (y_intercept v).

End Growth.

(** ** Concrete nodes and stores used to run the operations *)
Module Samples.

(** A node with three neighbours, the second of which is the boundary. *)
Definition idle_node : DetectorNode :=
  fresh_node [Some 7%positive; None; Some 9%positive] [4; 2; 6] [0; 1; 0].

(** Region 1 was absorbed by blossom 2, which was absorbed by blossom 3, the
    growing root; region 5 is another root. *)
Definition nested_store : region_store :=
  <[1%positive := {| radius := {| y_intercept := 10; slope := 0 |};
                     blossom_parent := Some 2%positive |}]>
  (<[2%positive := {| radius := {| y_intercept := 4; slope := 0 |};
                      blossom_parent := Some 3%positive |}]>
  (<[3%positive := {| radius := {| y_intercept := -14; slope := 1 |};
                      blossom_parent := None |}]>
  (<[5%positive := {| radius := {| y_intercept := 0; slope := 1 |};
                      blossom_parent := None |}]> ∅))).

(** A node reached by region 1 at radius 3, now owned by blossom 3. *)
Definition owned_node : DetectorNode :=
  {| observables_crossed_from_source := 5;
     reached_from_source := Some 11%positive;
     radius_of_arrival := 3;
     region_that_arrived := Some 1%positive;
     region_that_arrived_top := Some 3%positive;
     accumulated_radius_cached := 14;
     node_event_tracker := {[ 20 ]};
     neighbors := [Some 7%positive; None; Some 9%positive];
     neighbor_weights := [4; 2; 6];
     neighbor_observables := [0; 1; 0] |}.

(** A node reached and still owned by the root region 5. *)
Definition other_node : DetectorNode :=
  {| observables_crossed_from_source := 0;
     reached_from_source := Some 12%positive;
     radius_of_arrival := 0;
     region_that_arrived := Some 5%positive;
     region_that_arrived_top := Some 5%positive;
     accumulated_radius_cached := 0;
     node_event_tracker := ∅;
     neighbors := [Some 8%positive];
     neighbor_weights := [1];
     neighbor_observables := [0] |}.

(** A node reached by the root region 5 whose top pointer names blossom 3,
    which is not above region 5. *)
Definition stray_node : DetectorNode :=
  {| observables_crossed_from_source := 0;
     reached_from_source := Some 12%positive;
     radius_of_arrival := 1;
     region_that_arrived := Some 5%positive;
     region_that_arrived_top := Some 3%positive;
     accumulated_radius_cached := 0;
     node_event_tracker := ∅;
     neighbors := [Some 8%positive; Some 8%positive; None];
     neighbor_weights := [1; 2; 3];
     neighbor_observables := [0; 0; 0] |}.

(** A store that is no forest: regions 1 and 2 are each other's parent. *)
Definition cyclic_store : region_store :=
  <[1%positive := {| radius := {| y_intercept := 10; slope := 0 |};
                     blossom_parent := Some 2%positive |}]>
  (<[2%positive := {| radius := {| y_intercept := 4; slope := 0 |};
                      blossom_parent := Some 1%positive |}]>
  (<[3%positive := {| radius := {| y_intercept := -14; slope := 1 |};
                      blossom_parent := None |}]> ∅)).

End Samples.

(** ** Facts on 32-bit arithmetic *)
Module Int32Facts.
Import Int32.

Lemma wrap_decompose x : ∃ k, wrap x = x + k * modulus.
Proof.
  exists (- ((x + half_modulus) / modulus)). unfold wrap.
  pose proof (Z.div_mod (x + half_modulus) modulus) as E.
  unfold modulus in *. lia.
Qed.

Lemma wrap_in_range x : in_range (wrap x).
Proof.
  unfold in_range, wrap.
  pose proof (Z.mod_pos_bound (x + half_modulus) modulus) as B.
  unfold modulus, half_modulus in *. lia.
Qed.

Lemma wrap_small x : in_range x → wrap x = x.
Proof.
  unfold in_range, wrap, modulus, half_modulus. intros B.
  rewrite Z.mod_small by lia. lia.
Qed.

Lemma wrap_congr a b k : a = b + k * modulus → wrap a = wrap b.
Proof.
  intros ->. unfold wrap.
  replace (b + k * modulus + half_modulus) with (b + half_modulus + k * modulus) by lia.
  rewrite Z.mod_add; [done | unfold modulus; lia].
Qed.

Lemma wrap_idemp x : wrap (wrap x) = wrap x.
Proof. apply wrap_small, wrap_in_range. Qed.

Lemma wrap_add_l a b : wrap (wrap a + b) = wrap (a + b).
Proof.
  destruct (wrap_decompose a) as [k ->].
  apply (wrap_congr _ _ k). lia.
Qed.

Lemma wrap_add_r a b : wrap (a + wrap b) = wrap (a + b).
Proof. rewrite Z.add_comm, wrap_add_l. f_equal. lia. Qed.

Lemma wrap_sub_l a b : wrap (wrap a - b) = wrap (a - b).
Proof. unfold Z.sub. apply wrap_add_l. Qed.

Lemma wrap_sub_r a b : wrap (a - wrap b) = wrap (a - b).
Proof.
  destruct (wrap_decompose b) as [k ->].
  apply (wrap_congr _ _ (- k)). lia.
Qed.

End Int32Facts.

(** Equations between wrapped sums, by the quotients and remainders of the
    divisions behind [Int32.wrap]. *)
Ltac int32_lia :=
  unfold Int32.sub, Int32.add, Int32.wrap, Int32.modulus, Int32.half_modulus in *;
  change (2 ^ 32) with 4294967296 in *; change (2 ^ 31) with 2147483648 in *;
  Z.div_mod_to_equations; lia.

Create Rewrite HintDb int32.
#[local] Hint Rewrite Int32Facts.wrap_idemp Int32Facts.wrap_add_l Int32Facts.wrap_add_r
  Int32Facts.wrap_sub_l Int32Facts.wrap_sub_r : int32.

(** ** The operations on the sample data *)
Module SampleRuns.
Import Samples.

Example owned_node_wrapped_radius :
  compute_wrapped_radius 2 nested_store owned_node = Ok 11.
Proof. vm_compute. reflexivity. Qed.

Example owned_node_local_radius :
  local_radius 2 nested_store owned_node = Ok {| y_intercept := -3; slope := 1 |}.
Proof. vm_compute. reflexivity. Qed.

Example owned_node_short_of_fuel :
  local_radius 1 nested_store owned_node = Err OutOfFuel.
Proof. vm_compute. reflexivity. Qed.

Example idle_node_local_radius :
  local_radius 0 nested_store idle_node = Ok Varying32_zero.
Proof. vm_compute. reflexivity. Qed.

Example owned_node_boundary_index :
  index_of_neighbor owned_node None = Ok 1%nat.
Proof. reflexivity. Qed.

Example owned_node_not_adjacent :
  index_of_neighbor owned_node (Some 8%positive)
  = Err (InvalidArgument "Failed to find neighbor.").
Proof. reflexivity. Qed.

End SampleRuns.

(** ** The adjacency scan *)
Section IndexOfNeighbor.

Implicit Types (ns : list node_ptr) (target : node_ptr) (k : nat).

Lemma index_of_neighbor_from_found ns target k :
  target ∈ ns →
  ∃ i : nat,
    index_of_neighbor_from k ns target = Ok (k + i)%nat
    ∧ ns !! i = Some target
    ∧ ∀ j : nat, (j < i)%nat → ns !! j ≠ Some target.
Proof.
  revert k. induction ns as [|n ns IH]; intros k Hin.
  - by apply elem_of_nil in Hin.
  - cbn [index_of_neighbor_from]. destruct (decide (n = target)) as [->|Hne].
    + exists 0%nat. split_and!; [f_equal; lia | done | intros j Hj; lia].
    + apply elem_of_cons in Hin as [Heq|Hin]; [congruence|].
      destruct (IH (S k) Hin) as (i & Hres & Hat & Hfirst).
      exists (S i). split_and!.
      * rewrite Hres. f_equal. lia.
      * done.
      * intros [|j] Hj; cbn; [congruence | apply Hfirst; lia].
Qed.

Lemma index_of_neighbor_from_missing ns target k :
  target ∉ ns →
  index_of_neighbor_from k ns target = Err (InvalidArgument "Failed to find neighbor.").
Proof.
  revert k. induction ns as [|n ns IH]; intros k Hnin; [done|].
  cbn [index_of_neighbor_from]. apply not_elem_of_cons in Hnin as [Hne Hnin].
  destruct (decide (n = target)); [congruence | by apply IH].
Qed.

(** C2: when [target] occurs in the adjacency list, [index_of_neighbor]
    returns a position [k] with [neighbors[k] == target] (the first such
    position); when [target] is not adjacent it fails with the
    invalid-argument condition and returns no value. *)
Theorem index_of_neighbor_correct (n : DetectorNode) (target : node_ptr) :
  (target ∈ neighbors n →
     ∃ k : nat,
       index_of_neighbor n target = Ok k
       ∧ neighbors n !! k = Some target
       ∧ ∀ j : nat, (j < k)%nat → neighbors n !! j ≠ Some target)
  ∧ (target ∉ neighbors n →
       index_of_neighbor n target = Err (InvalidArgument "Failed to find neighbor.")).
Proof.
  split.
  - intros Hin.
    destruct (index_of_neighbor_from_found _ _ 0%nat Hin) as (i & Hres & Hat & Hfirst).
    exists i. by rewrite <- (Nat.add_0_l i) at 1.
  - apply index_of_neighbor_from_missing.
Qed.

End IndexOfNeighbor.

(** ** Ownership tests *)

(** C3: [has_same_owner_as] is true exactly when the two nodes have the same
    [region_that_arrived_top]: true for nodes sharing a top-level region,
    false for nodes owned by distinct top-level regions. *)
Theorem has_same_owner_as_iff (n other : DetectorNode) :
  (has_same_owner_as n other = true
     ↔ region_that_arrived_top n = region_that_arrived_top other)
  ∧ (region_that_arrived_top n ≠ region_that_arrived_top other
     → has_same_owner_as n other = false).
Proof.
  unfold has_same_owner_as. split.
  - apply bool_decide_eq_true.
  - intros Hne. by apply bool_decide_eq_false.
Qed.

Lemma unreached_has_no_owner (n : DetectorNode) :
  ownership_invariant n → reached_from_source n = None →
  region_that_arrived_top n = None.
Proof.
  intros [Hinv _] Hnone.
  destruct (region_that_arrived_top n) as [a|] eqn:Htop; [|done].
  exfalso. by apply Hinv.
Qed.

Lemma reached_has_owner (n : DetectorNode) :
  ownership_invariant n → reached_from_source n ≠ None →
  ∃ a, region_that_arrived_top n = Some a.
Proof.
  intros [_ Hinv] Hsome.
  destruct (region_that_arrived_top n) as [a|] eqn:Htop; [by exists a|].
  by destruct (Hinv Hsome).
Qed.

(** C9: two unreached nodes ([reached_from_source] null, hence
    [region_that_arrived_top] null on both) are reported as having the same
    owner, although neither has an owning region. *)
Theorem unreached_nodes_share_owner (n other : DetectorNode) :
  ownership_invariant n → ownership_invariant other →
  reached_from_source n = None → reached_from_source other = None →
  has_same_owner_as n other = true
  ∧ region_that_arrived_top n = None
  ∧ region_that_arrived_top other = None.
Proof.
  intros Hn Ho Hrn Hro.
  pose proof (unreached_has_no_owner n Hn Hrn) as Htn.
  pose proof (unreached_has_no_owner other Ho Hro) as Hto.
  split_and!; [|done..].
  unfold has_same_owner_as. apply bool_decide_eq_true. congruence.
Qed.

Lemma unreached_nodes_share_owner_witness :
  has_same_owner_as (reset Samples.owned_node) Samples.idle_node = true
  ∧ region_that_arrived_top (reset Samples.owned_node) = None
  ∧ region_that_arrived_top Samples.idle_node = None.
Proof.
  apply (unreached_nodes_share_owner (reset Samples.owned_node) Samples.idle_node).
  - unfold ownership_invariant. simpl. tauto.
  - unfold ownership_invariant. simpl. tauto.
  - reflexivity.
  - reflexivity.
Defined.

(** ** Reset *)

Lemma reset_ownership_invariant (n : DetectorNode) : ownership_invariant (reset n).
Proof. unfold ownership_invariant. cbn. tauto. Qed.

(** C5: after [reset] the node is unreached: the tree pointers are null, the
    arrival radius, the cached radius and the observables accumulator are
    zero and no pending event is left; it is the freshly constructed node on
    the same adjacency, and every query answers on it as on that node. *)
Theorem reset_restores_fresh_node (n : DetectorNode) :
  reached_from_source (reset n) = None
  ∧ region_that_arrived (reset n) = None
  ∧ region_that_arrived_top (reset n) = None
  ∧ radius_of_arrival (reset n) = 0
  ∧ accumulated_radius_cached (reset n) = 0
  ∧ observables_crossed_from_source (reset n) = 0
  ∧ node_event_tracker (reset n) = ∅
  ∧ reset n = fresh_node (neighbors n) (neighbor_weights n) (neighbor_observables n)
  ∧ ∀ (fuel : nat) (h : region_store) (other : DetectorNode) (target : node_ptr),
      let fresh := fresh_node (neighbors n) (neighbor_weights n) (neighbor_observables n) in
      local_radius fuel h (reset n) = Ok Varying32_zero
      ∧ local_radius fuel h fresh = Ok Varying32_zero
      ∧ compute_wrapped_radius fuel h (reset n) = Ok 0
      ∧ compute_wrapped_radius fuel h fresh = Ok 0
      ∧ has_same_owner_as (reset n) other = has_same_owner_as fresh other
      ∧ has_same_owner_as other (reset n) = has_same_owner_as other fresh
      ∧ index_of_neighbor (reset n) target = index_of_neighbor fresh target.
Proof. by split_and!. Qed.

(** C10: [reset] leaves the graph structure alone: the adjacency list and
    the edge data are what they were, so [index_of_neighbor] answers the same
    before and after. *)
Theorem reset_preserves_adjacency (n : DetectorNode) :
  neighbors (reset n) = neighbors n
  ∧ neighbor_weights (reset n) = neighbor_weights n
  ∧ neighbor_observables (reset n) = neighbor_observables n
  ∧ ∀ target : node_ptr,
      index_of_neighbor (reset n) target = index_of_neighbor n target.
Proof. by split_and!. Qed.

(** ** The ancestor walk *)
Section AncestorWalk.

Context (h : region_store).
Implicit Types (top r : region_ptr) (path : list GraphFillRegion).

Lemma result_bind_ok {A B : Type} (a : A) (k : A → result B) :
  (Ok a ≫= k) = k a.
Proof. reflexivity. Qed.

Lemma frozen_radii_cons (reg : GraphFillRegion) path :
  frozen_radii (reg :: path) = y_intercept (radius reg) + frozen_radii path.
Proof. reflexivity. Qed.

Lemma frozen_radii_app path path' :
  frozen_radii (path ++ path') = frozen_radii path + frozen_radii path'.
Proof.
  induction path as [|reg path IH]; [done|].
  rewrite <- app_comm_cons, !frozen_radii_cons, IH. lia.
Qed.

(** A chain is determined by its two ends. *)
Lemma blossom_chain_functional top r path path' :
  blossom_chain h top r path → blossom_chain h top r path' → path = path'.
Proof.
  intros Hc. revert path'.
  induction Hc as [|a reg path Hne Hlook Hc IH]; intros path' Hc'.
  - inversion Hc'; [done | congruence].
  - inversion Hc' as [|a' reg' p' Hne' Hlook' Hc'' Ha]; subst; [congruence|].
    rewrite Hlook in Hlook'. injection Hlook' as <-.
    f_equal. by apply IH.
Qed.

Lemma reaches_blossom_chain top r :
  reaches h r top → ∃ path, blossom_chain h top r path.
Proof.
  induction 1 as [r|a reg top Hlook Hreach [path IH]].
  - exists []. constructor.
  - destruct (decide (Some a = top)) as [<-|Hne].
    + exists []. constructor.
    + exists (reg :: path). by constructor.
Qed.

Lemma blossom_chain_reaches top r path :
  blossom_chain h top r path → reaches h r top.
Proof. induction 1; econstructor; eauto. Qed.

(** With fuel for every region of the chain, the loop leaves it at [top]
    with the frozen radii added up, after one iteration per region. *)
Lemma wrapped_radius_loop_chain top r path (fuel : nat) (total : Z) (iterations : nat) :
  blossom_chain h top r path →
  (length path ≤ fuel)%nat →
  Int32.wrap total = total →
  wrapped_radius_loop fuel h top r total iterations
  = Ok (Int32.wrap (total + frozen_radii path), (iterations + length path)%nat).
Proof.
  intros Hc. revert fuel total iterations.
  induction Hc as [|a reg path Hne Hlook Hc IH]; intros fuel total iterations Hfuel Htotal.
  - destruct fuel; cbn [wrapped_radius_loop]; rewrite decide_True by done;
      cbn; rewrite Z.add_0_r, Htotal; do 2 f_equal; lia.
  - destruct fuel as [|fuel]; [cbn in Hfuel; lia|].
    cbn [wrapped_radius_loop]. rewrite decide_False by done.
    cbn [deref]. rewrite Hlook, result_bind_ok.
    rewrite IH; [| cbn in Hfuel; lia | apply Int32Facts.wrap_idemp].
    rewrite frozen_radii_cons. cbn [length]. unfold Int32.add.
    rewrite Int32Facts.wrap_add_l. f_equal. f_equal; [f_equal; lia | lia].
Qed.

(** With less fuel than the chain is long, the loop is cut short. *)
Lemma wrapped_radius_loop_starved top r path (fuel : nat) (total : Z) (iterations : nat) :
  blossom_chain h top r path →
  (fuel < length path)%nat →
  wrapped_radius_loop fuel h top r total iterations = Err OutOfFuel.
Proof.
  intros Hc. revert fuel total iterations.
  induction Hc as [|a reg path Hne Hlook Hc IH]; intros fuel total iterations Hfuel.
  - cbn in Hfuel. lia.
  - destruct fuel as [|fuel]; cbn [wrapped_radius_loop]; rewrite decide_False by done;
      [done|].
    cbn [deref]. rewrite Hlook, result_bind_ok. apply IH. cbn in Hfuel. lia.
Qed.

Lemma compute_wrapped_radius_chain (n : DetectorNode) path (fuel : nat) :
  reached_from_source n ≠ None →
  blossom_chain h (region_that_arrived_top n) (region_that_arrived n) path →
  (length path ≤ fuel)%nat →
  compute_wrapped_radius fuel h n
  = Ok (Int32.wrap (frozen_radii path - radius_of_arrival n)).
Proof.
  intros Hreached Hc Hfuel. unfold compute_wrapped_radius.
  destruct (reached_from_source n); [|done].
  rewrite (wrapped_radius_loop_chain _ _ path) by done.
  rewrite result_bind_ok. cbn [fst]. unfold Int32.sub.
  by rewrite Int32Facts.wrap_sub_l, Z.add_0_l.
Qed.

Lemma local_radius_chain (n : DetectorNode) (root : GraphFillRegion) path (fuel : nat) :
  reached_from_source n ≠ None →
  deref h (region_that_arrived_top n) = Ok root →
  blossom_chain h (region_that_arrived_top n) (region_that_arrived n) path →
  (length path ≤ fuel)%nat →
  local_radius fuel h n
  = Ok (varying_add (radius root)
          (Int32.wrap (frozen_radii path - radius_of_arrival n))).
Proof.
  intros Hreached Hroot Hc Hfuel. unfold local_radius.
  destruct (region_that_arrived_top n) as [a|] eqn:Htop; [|done].
  rewrite Hroot, result_bind_ok.
  rewrite (compute_wrapped_radius_chain n path) by (done || by rewrite Htop).
  by rewrite result_bind_ok.
Qed.

Lemma varying_add_at_time (v : Varying32) (offset t : Z) :
  get_distance_at_time (varying_add v offset) t
  = Int32.wrap (get_distance_at_time v t + offset).
Proof.
  unfold get_distance_at_time, varying_add, Int32.add. cbn.
  autorewrite with int32. f_equal. lia.
Qed.

End AncestorWalk.

(** ** The local radius of a node *)

(** C4: on a node that no growth front has reached ([reached_from_source]
    null, and by the ownership invariant no top-level region either),
    [local_radius] returns the zero sentinel [Varying32{0}], whatever the
    store; [compute_wrapped_radius] returns 0. *)
Theorem local_radius_unreached (fuel : nat) (h : region_store) (n : DetectorNode) :
  ownership_invariant n →
  reached_from_source n = None →
  local_radius fuel h n = Ok Varying32_zero
  ∧ compute_wrapped_radius fuel h n = Ok 0
  ∧ ∀ t : Z, get_distance_at_time Varying32_zero t = 0.
Proof.
  intros Hinv Hnone. split_and!.
  - unfold local_radius. by rewrite (unreached_has_no_owner n Hinv Hnone).
  - unfold compute_wrapped_radius. by rewrite Hnone.
  - intros t. unfold get_distance_at_time. cbn. by rewrite Z.mul_0_l.
Qed.

Lemma local_radius_unreached_witness :
  local_radius 0 Samples.nested_store (reset Samples.owned_node) = Ok Varying32_zero
  ∧ compute_wrapped_radius 0 Samples.nested_store (reset Samples.owned_node) = Ok 0
  ∧ ∀ t : Z, get_distance_at_time Varying32_zero t = 0.
Proof.
  apply (local_radius_unreached 0 Samples.nested_store (reset Samples.owned_node)).
  - unfold ownership_invariant. simpl. tauto.
  - reflexivity.
Defined.

(** C1: on a reached node whose top-level region [root] is live in the
    store, [local_radius] returns the radius of [root] shifted by the sum of
    the frozen radii (y-intercepts) of the regions from the node's immediate
    region up to, and without, [root], less [radius_of_arrival]; it varies
    with time as the radius of [root] does. *)
Theorem local_radius_reached (fuel : nat) (h : region_store) (n : DetectorNode)
    (root : GraphFillRegion) (path : list GraphFillRegion) :
  reached_from_source n ≠ None →
  deref h (region_that_arrived_top n) = Ok root →
  blossom_chain h (region_that_arrived_top n) (region_that_arrived n) path →
  (length path ≤ fuel)%nat →
  ∃ v : Varying32,
    local_radius fuel h n = Ok v
    ∧ v = varying_add (radius root)
            (Int32.wrap (frozen_radii path - radius_of_arrival n))
    ∧ slope v = slope (radius root)
    ∧ ∀ t : Z,
        get_distance_at_time v t
        = Int32.wrap (get_distance_at_time (radius root) t
                      + frozen_radii path - radius_of_arrival n).
Proof.
  intros Hreached Hroot Hc Hfuel. eexists. split_and!.
  - by apply (local_radius_chain h n root path).
  - done.
  - done.
  - intros t. rewrite varying_add_at_time. autorewrite with int32.
    f_equal. lia.
Qed.

Lemma nested_store_chain :
  blossom_chain Samples.nested_store (Some 3%positive) (Some 1%positive)
    [ {| radius := {| y_intercept := 10; slope := 0 |}; blossom_parent := Some 2%positive |};
      {| radius := {| y_intercept := 4; slope := 0 |}; blossom_parent := Some 3%positive |} ].
Proof.
  apply blossom_chain_step; [discriminate | vm_compute; reflexivity |].
  apply blossom_chain_step; [discriminate | vm_compute; reflexivity |].
  apply blossom_chain_top.
Defined.

Lemma local_radius_reached_witness :
  ∃ v : Varying32,
    local_radius 2 Samples.nested_store Samples.owned_node = Ok v
    ∧ v = varying_add {| y_intercept := -14; slope := 1 |} (Int32.wrap (10 + (4 + 0) - 3))
    ∧ slope v = 1
    ∧ ∀ t : Z,
        get_distance_at_time v t
        = Int32.wrap (get_distance_at_time {| y_intercept := -14; slope := 1 |} t
                      + (10 + (4 + 0)) - 3).
Proof.
  apply (local_radius_reached 2 Samples.nested_store Samples.owned_node
           {| radius := {| y_intercept := -14; slope := 1 |}; blossom_parent := None |}
           _ ltac:(discriminate) ltac:(vm_compute; reflexivity) nested_store_chain).
  simpl. lia.
Defined.

(** C8: when [region_that_arrived_top] is reached from [region_that_arrived]
    along [blossom_parent] pointers, the walk of [compute_wrapped_radius]
    ends: on a reached node it makes one iteration per region of the chain
    between the two, so as many as the nesting depth, whatever else the store
    holds: [compute_wrapped_radius] returns its value with that many
    iterations allowed and is cut short with fewer. The chain is the only
    one. On an unreached node the function returns before the loop, with no
    iteration. *)
Theorem ancestor_walk_terminates (h : region_store) (n : DetectorNode) :
  reaches h (region_that_arrived n) (region_that_arrived_top n) →
  ∃ path : list GraphFillRegion,
    blossom_chain h (region_that_arrived_top n) (region_that_arrived n) path
    ∧ (∀ path' : list GraphFillRegion,
         blossom_chain h (region_that_arrived_top n) (region_that_arrived n) path' →
         path' = path)
    ∧ (reached_from_source n = None →
       ∀ fuel : nat, compute_wrapped_radius fuel h n = Ok 0)
    ∧ ∀ fuel : nat,
        ((length path ≤ fuel)%nat →
           wrapped_radius_loop fuel h (region_that_arrived_top n)
             (region_that_arrived n) 0 O
           = Ok (Int32.wrap (frozen_radii path), length path)
           ∧ (reached_from_source n ≠ None →
              compute_wrapped_radius fuel h n
              = Ok (Int32.wrap (frozen_radii path - radius_of_arrival n))))
        ∧ ((fuel < length path)%nat →
             wrapped_radius_loop fuel h (region_that_arrived_top n)
               (region_that_arrived n) 0 O
             = Err OutOfFuel
             ∧ (reached_from_source n ≠ None →
                compute_wrapped_radius fuel h n = Err OutOfFuel)).
Proof.
  intros Hreach. destruct (reaches_blossom_chain h _ _ Hreach) as [path Hc].
  exists path. split; [done|]. split.
  { intros path' Hc'. eapply blossom_chain_functional; eassumption. }
  split.
  { intros Hnone fuel. unfold compute_wrapped_radius. by rewrite Hnone. }
  intros fuel. split.
  - intros Hfuel. split.
    + by rewrite (wrapped_radius_loop_chain h _ _ path).
    + intros Hreached. by apply compute_wrapped_radius_chain.
  - intros Hfuel.
    pose proof (wrapped_radius_loop_starved h _ _ path fuel 0 0%nat Hc Hfuel) as Hloop.
    split; [done|]. intros Hreached. unfold compute_wrapped_radius.
    destruct (reached_from_source n); [|done]. by rewrite Hloop.
Qed.

Lemma ancestor_walk_terminates_witness :
  ∃ path : list GraphFillRegion,
    blossom_chain Samples.nested_store (Some 3%positive) (Some 1%positive) path
    ∧ (∀ path' : list GraphFillRegion,
         blossom_chain Samples.nested_store (Some 3%positive) (Some 1%positive) path' →
         path' = path)
    ∧ (reached_from_source Samples.owned_node = None →
       ∀ fuel : nat,
         compute_wrapped_radius fuel Samples.nested_store Samples.owned_node = Ok 0)
    ∧ ∀ fuel : nat,
        ((length path ≤ fuel)%nat →
           wrapped_radius_loop fuel Samples.nested_store (Some 3%positive)
             (Some 1%positive) 0 O
           = Ok (Int32.wrap (frozen_radii path), length path)
           ∧ (reached_from_source Samples.owned_node ≠ None →
              compute_wrapped_radius fuel Samples.nested_store Samples.owned_node
              = Ok (Int32.wrap (frozen_radii path - 3))))
        ∧ ((fuel < length path)%nat →
             wrapped_radius_loop fuel Samples.nested_store (Some 3%positive)
               (Some 1%positive) 0 O
             = Err OutOfFuel
             ∧ (reached_from_source Samples.owned_node ≠ None →
                compute_wrapped_radius fuel Samples.nested_store Samples.owned_node
                = Err OutOfFuel)).
Proof.
  apply (ancestor_walk_terminates Samples.nested_store Samples.owned_node).
  simpl.
  apply (reaches_parent _ 1%positive
           {| radius := {| y_intercept := 10; slope := 0 |}; blossom_parent := Some 2%positive |});
    [vm_compute; reflexivity|].
  apply (reaches_parent _ 2%positive
           {| radius := {| y_intercept := 4; slope := 0 |}; blossom_parent := Some 3%positive |});
    [vm_compute; reflexivity|].
  apply reaches_here.
Defined.

(** ** The ownership invariant *)

(** C7: the operations of [detector_node.cc] keep the ownership invariant
    ([region_that_arrived_top] non-null iff [reached_from_source] non-null);
    [reset] establishes it on any node by nulling both pointers; and on a
    node that satisfies it the null tests of [local_radius] and of
    [compute_wrapped_radius] agree: both give zero on an unreached node, and
    on a reached one [local_radius] is the radius of the top-level region
    plus what the walk of [compute_wrapped_radius] returns. *)
Theorem ownership_invariant_preserved (n : DetectorNode) :
  (∀ op : node_op, ownership_invariant n → ownership_invariant (node_after op n))
  ∧ (ownership_invariant (reset n)
     ∧ region_that_arrived_top (reset n) = None
     ∧ reached_from_source (reset n) = None)
  ∧ (ownership_invariant n →
     ∀ (fuel : nat) (h : region_store),
       (reached_from_source n = None →
          local_radius fuel h n = Ok Varying32_zero
          ∧ compute_wrapped_radius fuel h n = Ok 0)
       ∧ (reached_from_source n ≠ None →
            local_radius fuel h n
            = (top ← deref h (region_that_arrived_top n) ;
               w ← compute_wrapped_radius fuel h n ;
               Ok (varying_add (radius top) w))
            ∧ compute_wrapped_radius fuel h n
              = (ti ← wrapped_radius_loop fuel h (region_that_arrived_top n)
                        (region_that_arrived n) 0 O ;
                 Ok (Int32.sub ti.1 (radius_of_arrival n))))).
Proof.
  split_and!.
  - intros [] Hinv; cbn [node_after]; auto using reset_ownership_invariant.
  - apply reset_ownership_invariant.
  - done.
  - done.
  - intros Hinv fuel h. split.
    + intros Hnone. split.
      * unfold local_radius. by rewrite (unreached_has_no_owner n Hinv Hnone).
      * unfold compute_wrapped_radius. by rewrite Hnone.
    + intros Hsome. destruct (reached_has_owner n Hinv Hsome) as [a Htop]. split.
      * unfold local_radius. by rewrite Htop.
      * unfold compute_wrapped_radius. by destruct (reached_from_source n).
Qed.

(** ** Nested and flat radius accounting *)
Section GrowthHistories.
Import Growth.

Implicit Types (h : region_store) (n : DetectorNode) (v : Varying32)
  (path : list GraphFillRegion).

(** Rewriting the top-level region leaves the chain below it as it is. *)
Lemma blossom_chain_insert_top h (a : positive) (reg : GraphFillRegion) (r : region_ptr) path :
  blossom_chain h (Some a) r path →
  blossom_chain (<[a := reg]> h) (Some a) r path.
Proof.
  induction 1 as [|a' reg' path Hne Hlook Hc IH]; [constructor|].
  constructor; [done | | done].
  rewrite lookup_insert_ne; [done | congruence].
Qed.

(** Absorbing the top-level region [a] into a new blossom [b] puts the
    frozen region at the far end of the chain. *)
Lemma blossom_chain_absorb h (a b : positive) (frozen blossom : GraphFillRegion)
    (r : region_ptr) path :
  blossom_chain h (Some a) r path →
  is_Some (h !! a) →
  h !! b = None →
  blossom_parent frozen = Some b →
  blossom_chain (<[b := blossom]> (<[a := frozen]> h)) (Some b) r (path ++ [frozen]).
Proof.
  intros Hc [root Ha] Hb Hparent.
  assert (a ≠ b) as Hab by congruence.
  induction Hc as [|a' reg' path Hne Hlook Hc IH].
  - cbn. constructor; [congruence | |].
    + by rewrite lookup_insert_ne, lookup_insert_eq.
    + rewrite Hparent. constructor.
  - rewrite <- app_comm_cons. constructor; [congruence | | done].
    rewrite !lookup_insert_ne; [done | congruence..].
Qed.

Lemma nested_step_tracks (ev : growth_event) h n v (arrival : Z) (depth : nat) :
  tracks h n v arrival depth →
  ∃ h' n',
    nested_step ev (h, n) = Ok (h', n')
    ∧ region_that_arrived n' = region_that_arrived n
    ∧ tracks h' n' (flat_step ev v) arrival
        (match ev with Absorb _ => S depth | SetRate _ _ => depth end).
Proof.
  intros (a & root & path & Hreached & Harr & Htop & Hroot & Hc & Hlen & Hslope & Hsum).
  unfold nested_step. cbn [fst snd]. rewrite Htop. cbn [deref].
  rewrite Hroot, result_bind_ok. destruct ev as [t rate|t].
  - eexists _, n. split_and!; [done..|].
    exists a, {| radius := with_rate_at (radius root) t rate;
                 blossom_parent := blossom_parent root |}, path.
    split_and!; try done.
    + apply lookup_insert_eq.
    + by apply blossom_chain_insert_top.
    + cbn [radius y_intercept with_rate_at flat_step]. unfold get_distance_at_time.
      rewrite Hslope. int32_lia.
  - set (b := fresh (dom h)).
    assert (h !! b = None) as Hb by (apply not_elem_of_dom, is_fresh).
    eexists _, (set_top n (Some b)). split_and!; [done..|].
    exists b, {| radius := growing_from_zero_at t; blossom_parent := None |},
      (path ++ [ {| radius := freeze_at (radius root) t; blossom_parent := Some b |} ]).
    split_and!; try done.
    + apply lookup_insert_eq.
    + cbn [set_top region_that_arrived]. by apply blossom_chain_absorb.
    + rewrite length_app. cbn. lia.
    + rewrite frozen_radii_app, frozen_radii_cons.
      cbn [radius y_intercept with_rate_at flat_step growing_from_zero_at freeze_at
           frozen_radii foldr].
      unfold get_distance_at_time. rewrite Hslope. int32_lia.
Qed.

Lemma nested_run_tracks (history : list growth_event) h n v (arrival : Z) (depth : nat) :
  tracks h n v arrival depth →
  ∃ h' n',
    nested_run history (h, n) = Ok (h', n')
    ∧ region_that_arrived n' = region_that_arrived n
    ∧ tracks h' n' (flat_run history v) arrival (depth + absorptions history).
Proof.
  revert h n v depth.
  induction history as [|ev rest IH]; intros h n v depth Htracks.
  - exists h, n. cbn. by rewrite Nat.add_0_r.
  - destruct (nested_step_tracks ev h n v arrival depth Htracks)
      as (h1 & n1 & Hstep & Hra1 & Htracks1).
    destruct (IH _ _ _ _ Htracks1) as (h' & n' & Hrun & Hra & Htracks').
    exists h', n'. cbn [nested_run]. rewrite Hstep, result_bind_ok.
    split_and!; [done | congruence |].
    change (flat_run (ev :: rest) v) with (flat_run rest (flat_step ev v)).
    destruct ev; cbn [absorptions]; [done|].
    by rewrite Nat.add_succ_r.
Qed.

(** Where the two representations agree, the ancestor walk gives the flat
    radius at every time. *)
Lemma tracks_local_radius h n v (arrival : Z) (depth fuel : nat) (t : Z) :
  tracks h n v arrival depth →
  (depth ≤ fuel)%nat →
  ∃ lr : Varying32,
    local_radius fuel h n = Ok lr
    ∧ get_distance_at_time lr t = flat_local_radius v arrival t.
Proof.
  intros (a & root & path & Hreached & Harr & Htop & Hroot & Hc & Hlen & Hslope & Hsum) Hfuel.
  eexists. split.
  - apply (local_radius_chain h n root path); rewrite ?Htop; cbn [deref];
      rewrite ?Hroot; (done || lia).
  - rewrite varying_add_at_time. unfold flat_local_radius, get_distance_at_time.
    rewrite Hslope, Harr. int32_lia.
Qed.

End GrowthHistories.

(** C6: take a reached node whose immediate region is its own top-level
    region, and any growth history: rate changes of the top-level region and
    [k] nested absorptions into new blossoms. The nested representation ends
    with the node [k] blossoms deep, and [local_radius], computed by the
    ancestor walk over the frozen radii and evaluated at any time, is the flat
    radius: that of one never-nested region with the same history, less the
    arrival radius. *)
Theorem nested_radius_matches_flat (h : region_store) (n : DetectorNode)
    (a : positive) (r0 : GraphFillRegion) (history : list Growth.growth_event) :
  reached_from_source n ≠ None →
  region_that_arrived n = Some a →
  region_that_arrived_top n = Some a →
  h !! a = Some r0 →
  ∃ (h' : region_store) (n' : DetectorNode) (path : list GraphFillRegion),
    Growth.nested_run history (h, n) = Ok (h', n')
    ∧ blossom_chain h' (region_that_arrived_top n') (region_that_arrived n') path
    ∧ length path = Growth.absorptions history
    ∧ ∀ (fuel : nat) (t : Z),
        (Growth.absorptions history ≤ fuel)%nat →
        ∃ lr : Varying32,
          local_radius fuel h' n' = Ok lr
          ∧ get_distance_at_time lr t
            = Growth.flat_local_radius (Growth.flat_run history (radius r0))
                (radius_of_arrival n) t.
Proof.
  intros Hreached Hra Htop Hr0.
  assert (Growth.tracks h n (radius r0) (radius_of_arrival n) 0) as Htracks.
  { exists a, r0, []. split_and!; try done. rewrite Hra. constructor.
    cbn. by rewrite Z.add_0_r. }
  destruct (nested_run_tracks history _ _ _ _ _ Htracks) as (h' & n' & Hrun & _ & Htracks').
  cbn [Nat.add] in Htracks'.
  pose proof Htracks' as (a' & root & path & _ & _ & Htop' & _ & Hc & Hlen & _).
  exists h', n', path. split_and!; [done | by rewrite Htop' | done |].
  intros fuel t Hfuel. by apply (tracks_local_radius h' n' _ _ _ fuel t Htracks').
Qed.

Example nested_absorptions_run :
  (s ← Growth.nested_run [Growth.Absorb 5; Growth.SetRate 8 0; Growth.SetRate 9 1; Growth.Absorb 12]
         (Samples.nested_store, Samples.other_node) ;
   lr ← local_radius 2 s.1 s.2 ;
   Ok (region_that_arrived_top s.2, lr, get_distance_at_time lr 20))
  = Ok (Some 7%positive, {| y_intercept := -1; slope := 1 |}, 19).
Proof. vm_compute. reflexivity. Qed.

Example flat_absorptions_run :
  Growth.flat_local_radius
    (Growth.flat_run [Growth.Absorb 5; Growth.SetRate 8 0; Growth.SetRate 9 1; Growth.Absorb 12]
       {| y_intercept := 0; slope := 1 |}) 0 20
  = 19.
Proof. vm_compute. reflexivity. Qed.

Lemma nested_radius_matches_flat_witness :
  ∃ (h' : region_store) (n' : DetectorNode) (path : list GraphFillRegion),
    Growth.nested_run [Growth.Absorb 5; Growth.SetRate 8 0; Growth.SetRate 9 1; Growth.Absorb 12]
      (Samples.nested_store, Samples.other_node) = Ok (h', n')
    ∧ blossom_chain h' (region_that_arrived_top n') (region_that_arrived n') path
    ∧ length path = 2%nat
    ∧ ∀ (fuel : nat) (t : Z),
        (2 ≤ fuel)%nat →
        ∃ lr : Varying32,
          local_radius fuel h' n' = Ok lr
          ∧ get_distance_at_time lr t
            = Growth.flat_local_radius
                (Growth.flat_run
                   [Growth.Absorb 5; Growth.SetRate 8 0; Growth.SetRate 9 1; Growth.Absorb 12]
                   {| y_intercept := 0; slope := 1 |})
                0 t.
Proof.
  apply (nested_radius_matches_flat Samples.nested_store Samples.other_node 5%positive
           {| radius := {| y_intercept := 0; slope := 1 |}; blossom_parent := None |}
           [Growth.Absorb 5; Growth.SetRate 8 0; Growth.SetRate 9 1; Growth.Absorb 12]).
  - discriminate.
  - reflexivity.
  - reflexivity.
  - vm_compute. reflexivity.
Defined.

(** ** Every outcome of the ancestor walk *)
Section WalkOutcomes.

Context (h : region_store).
Implicit Types (top r : region_ptr) (path : list GraphFillRegion).

Lemma blossom_chain_ascends top r path :
  blossom_chain h top r path ↔ ascends h top r path top.
Proof.
  split.
  - induction 1; econstructor; eauto.
  - intros Ha. remember top as r' eqn:Hr' in Ha at 2.
    induction Ha as [r|a reg path r' Hne Hlook Ha IH]; subst; constructor; auto.
Qed.

(** The loop passes the regions of a path and goes on from where it ends. *)
Lemma wrapped_radius_loop_ascends top r path (r' : region_ptr) (fuel : nat)
    (total : Z) (iterations : nat) :
  ascends h top r path r' →
  (length path ≤ fuel)%nat →
  wrapped_radius_loop fuel h top r total iterations
  = wrapped_radius_loop (fuel - length path) h top r' (running_total total path)
      (iterations + length path).
Proof.
  intros Ha. revert fuel total iterations.
  induction Ha as [r|a reg path r' Hne Hlook Ha IH]; intros fuel total iterations Hfuel.
  - cbn. by rewrite Nat.sub_0_r, Nat.add_0_r.
  - destruct fuel as [|fuel]; [cbn in Hfuel; lia|].
    cbn [wrapped_radius_loop]. rewrite decide_False by done.
    cbn [deref]. rewrite Hlook, result_bind_ok.
    rewrite IH by (cbn in Hfuel; lia). cbn [length running_total foldl].
    f_equal. lia.
Qed.

Lemma wrapped_radius_loop_ascends_starved top r path (r' : region_ptr) (fuel : nat)
    (total : Z) (iterations : nat) :
  ascends h top r path r' →
  (fuel < length path)%nat →
  wrapped_radius_loop fuel h top r total iterations = Err OutOfFuel.
Proof.
  intros Ha. revert fuel total iterations.
  induction Ha as [r|a reg path r' Hne Hlook Ha IH]; intros fuel total iterations Hfuel.
  - cbn in Hfuel. lia.
  - destruct fuel as [|fuel]; cbn [wrapped_radius_loop]; rewrite decide_False by done;
      [done|].
    cbn [deref]. rewrite Hlook, result_bind_ok. apply IH. cbn in Hfuel. lia.
Qed.

(** A walk that returns has met [top]. *)
Lemma wrapped_radius_loop_ok_chain top r (fuel : nat) (total : Z) (iterations : nat)
    (res : Z * nat) :
  wrapped_radius_loop fuel h top r total iterations = Ok res →
  ∃ path, blossom_chain h top r path ∧ (length path ≤ fuel)%nat.
Proof.
  revert r total iterations.
  induction fuel as [|fuel IH]; intros r total iterations; cbn [wrapped_radius_loop].
  - destruct (decide (r = top)) as [->|Hne]; [|done].
    intros _. exists []. split; [constructor | done].
  - destruct (decide (r = top)) as [->|Hne].
    { intros _. exists []. split; [constructor | cbn; lia]. }
    destruct r as [a|]; [|done]. cbn [deref].
    destruct (h !! a) as [reg|] eqn:Hlook; [|done].
    rewrite result_bind_ok. intros Hres.
    destruct (IH _ _ _ Hres) as (path & Hc & Hlen).
    exists (reg :: path). split; [by constructor | cbn; lia].
Qed.

(** On a cycle that does not pass [top] the loop uses up any fuel. *)
Lemma wrapped_radius_loop_cycle top r path (fuel : nat) (total : Z) (iterations : nat) :
  ascends h top r path r →
  path ≠ [] →
  wrapped_radius_loop fuel h top r total iterations = Err OutOfFuel.
Proof.
  intros Ha Hne. revert total iterations.
  induction (lt_wf fuel) as [fuel _ IH]. intros total iterations.
  destruct (decide (fuel < length path)%nat) as [Hlt|Hge].
  - by apply (wrapped_radius_loop_ascends_starved top r path r).
  - rewrite (wrapped_radius_loop_ascends top r path r) by (done || lia).
    apply IH. destruct path; [done | cbn in *; lia].
Qed.

Lemma deref_error (r : region_ptr) (e : error) :
  deref h r = Err e → e = BadDereference.
Proof.
  destruct r as [a|]; cbn; [destruct (h !! a)|]; congruence.
Qed.

End WalkOutcomes.

(** X1: on a reached node, [compute_wrapped_radius] returns a value only when
    [region_that_arrived_top] is met on the way up from [region_that_arrived];
    the value is then the sum of the radii passed less [radius_of_arrival],
    and more fuel does not change it. *)
Theorem compute_wrapped_radius_returns_on_chain_only (fuel : nat) (h : region_store)
    (n : DetectorNode) (w : Z) :
  reached_from_source n ≠ None →
  compute_wrapped_radius fuel h n = Ok w →
  ∃ path : list GraphFillRegion,
    blossom_chain h (region_that_arrived_top n) (region_that_arrived n) path
    ∧ (length path ≤ fuel)%nat
    ∧ w = Int32.wrap (frozen_radii path - radius_of_arrival n)
    ∧ ∀ fuel' : nat, (length path ≤ fuel')%nat → compute_wrapped_radius fuel' h n = Ok w.
Proof.
  intros Hreached Hw.
  assert (∃ path, blossom_chain h (region_that_arrived_top n) (region_that_arrived n) path
                  ∧ (length path ≤ fuel)%nat) as (path & Hc & Hlen).
  { unfold compute_wrapped_radius in Hw. destruct (reached_from_source n); [|done].
    destruct (wrapped_radius_loop fuel h _ _ 0 0) as [res|e] eqn:Hloop; [|done].
    by apply (wrapped_radius_loop_ok_chain h _ _ fuel 0 0%nat res). }
  exists path.
  pose proof (compute_wrapped_radius_chain h n path fuel Hreached Hc Hlen) as Hval.
  rewrite Hw in Hval. injection Hval as ->.
  split_and!; [done..|]. intros fuel' Hfuel'.
  by apply compute_wrapped_radius_chain.
Qed.

Lemma compute_wrapped_radius_returns_on_chain_only_witness :
  ∃ path : list GraphFillRegion,
    blossom_chain Samples.nested_store (Some 3%positive) (Some 1%positive) path
    ∧ (length path ≤ 5)%nat
    ∧ 11 = Int32.wrap (frozen_radii path - 3)
    ∧ ∀ fuel' : nat, (length path ≤ fuel')%nat →
        compute_wrapped_radius fuel' Samples.nested_store Samples.owned_node = Ok 11.
Proof.
  apply (compute_wrapped_radius_returns_on_chain_only 5 Samples.nested_store
           Samples.owned_node 11).
  - discriminate.
  - vm_compute. reflexivity.
Defined.

(** X2: when the way up from [region_that_arrived] comes to a null or
    dangling pointer that is not [region_that_arrived_top] (the top is not
    above the immediate region), the walk dereferences it:
    [compute_wrapped_radius] on a reached node returns no value, and neither
    does [local_radius] when the top pointer is not null. *)
Theorem compute_wrapped_radius_walks_off_the_hierarchy (fuel : nat) (h : region_store)
    (n : DetectorNode) (path : list GraphFillRegion) (r' : region_ptr) :
  reached_from_source n ≠ None →
  ascends h (region_that_arrived_top n) (region_that_arrived n) path r' →
  r' ≠ region_that_arrived_top n →
  deref h r' = Err BadDereference →
  (length path < fuel)%nat →
  compute_wrapped_radius fuel h n = Err BadDereference
  ∧ (region_that_arrived_top n ≠ None → local_radius fuel h n = Err BadDereference).
Proof.
  intros Hreached Ha Hne Hbad Hfuel.
  assert (compute_wrapped_radius fuel h n = Err BadDereference) as Hcwr.
  { unfold compute_wrapped_radius. destruct (reached_from_source n); [|done].
    rewrite (wrapped_radius_loop_ascends h _ _ path r') by (done || lia).
    destruct (fuel - length path)%nat as [|fuel'] eqn:Hleft; [lia|].
    cbn [wrapped_radius_loop]. rewrite decide_False by done. by rewrite Hbad. }
  split; [done|]. intros Htop. unfold local_radius.
  destruct (region_that_arrived_top n) as [a|]; [|done].
  destruct (deref h (Some a)) as [top|e] eqn:Hderef.
  - by rewrite result_bind_ok, Hcwr.
  - by rewrite (deref_error h _ _ Hderef).
Qed.

Lemma compute_wrapped_radius_walks_off_the_hierarchy_witness :
  compute_wrapped_radius 2 Samples.nested_store Samples.stray_node = Err BadDereference
  ∧ (region_that_arrived_top Samples.stray_node ≠ None →
     local_radius 2 Samples.nested_store Samples.stray_node = Err BadDereference).
Proof.
  apply (compute_wrapped_radius_walks_off_the_hierarchy 2 Samples.nested_store
           Samples.stray_node
           [ {| radius := {| y_intercept := 0; slope := 1 |}; blossom_parent := None |} ]
           None).
  - discriminate.
  - apply ascends_step; [discriminate | vm_compute; reflexivity | apply ascends_here].
  - discriminate.
  - reflexivity.
  - simpl. lia.
Defined.

(** X3: when the way up from [region_that_arrived] runs into a cycle of
    [blossom_parent] pointers without meeting [region_that_arrived_top], the
    loop of [compute_wrapped_radius] never ends on a reached node: whatever
    the fuel, it is used up. *)
Theorem compute_wrapped_radius_loops_on_cycle (h : region_store) (n : DetectorNode)
    (lead cycle : list GraphFillRegion) (r : region_ptr) :
  reached_from_source n ≠ None →
  ascends h (region_that_arrived_top n) (region_that_arrived n) lead r →
  ascends h (region_that_arrived_top n) r cycle r →
  cycle ≠ [] →
  ∀ fuel : nat,
    compute_wrapped_radius fuel h n = Err OutOfFuel
    ∧ (region_that_arrived_top n ≠ None → ∀ v, local_radius fuel h n ≠ Ok v).
Proof.
  intros Hreached Hlead Hcycle Hne fuel.
  assert (compute_wrapped_radius fuel h n = Err OutOfFuel) as Hcwr.
  { unfold compute_wrapped_radius. destruct (reached_from_source n); [|done].
    destruct (decide (fuel < length lead)%nat) as [Hlt|Hge].
    - by rewrite (wrapped_radius_loop_ascends_starved h _ _ lead r).
    - rewrite (wrapped_radius_loop_ascends h _ _ lead r) by (done || lia).
      by rewrite (wrapped_radius_loop_cycle h _ r cycle). }
  split; [done|]. intros Htop v. unfold local_radius.
  destruct (region_that_arrived_top n) as [a|]; [|done].
  destruct (deref h (Some a)) as [top|e]; [|done].
  by rewrite result_bind_ok, Hcwr.
Qed.

Lemma compute_wrapped_radius_loops_on_cycle_witness :
  compute_wrapped_radius 1000 Samples.cyclic_store Samples.owned_node = Err OutOfFuel
  ∧ (region_that_arrived_top Samples.owned_node ≠ None →
     ∀ v, local_radius 1000 Samples.cyclic_store Samples.owned_node ≠ Ok v).
Proof.
  refine (compute_wrapped_radius_loops_on_cycle Samples.cyclic_store Samples.owned_node
           []
           [ {| radius := {| y_intercept := 10; slope := 0 |}; blossom_parent := Some 2%positive |};
             {| radius := {| y_intercept := 4; slope := 0 |}; blossom_parent := Some 1%positive |} ]
           (Some 1%positive) _ _ _ _ 1000%nat).
  - discriminate.
  - apply ascends_here.
  - apply ascends_step; [discriminate | vm_compute; reflexivity |].
    apply ascends_step; [discriminate | vm_compute; reflexivity |].
    apply ascends_here.
  - discriminate.
Defined.

(** ** What the walk reads *)
Section WalkFrame.

Implicit Types (h : region_store) (top r : region_ptr).

(** The loop stops at the top region without reading it. *)
Lemma wrapped_radius_loop_insert_top h (a : positive) (reg : GraphFillRegion)
    r (fuel : nat) (total : Z) (iterations : nat) :
  wrapped_radius_loop fuel (<[a := reg]> h) (Some a) r total iterations
  = wrapped_radius_loop fuel h (Some a) r total iterations.
Proof.
  revert r total iterations.
  induction fuel as [|fuel IH]; intros r total iterations; cbn [wrapped_radius_loop];
    destruct (decide (r = Some a)) as [->|Hne]; try done.
  destruct r as [a'|]; [|done]. cbn [deref].
  rewrite lookup_insert_ne by congruence.
  destruct (h !! a') as [reg'|]; [|done]. by rewrite !result_bind_ok.
Qed.

(** A walk that returns in a store returns the same in a larger one. *)
Lemma wrapped_radius_loop_weaken h h' top r (fuel : nat) (total : Z) (iterations : nat)
    (res : Z * nat) :
  h ⊆ h' →
  wrapped_radius_loop fuel h top r total iterations = Ok res →
  wrapped_radius_loop fuel h' top r total iterations = Ok res.
Proof.
  intros Hsub. revert r total iterations.
  induction fuel as [|fuel IH]; intros r total iterations; cbn [wrapped_radius_loop];
    destruct (decide (r = top)) as [->|Hne]; try done.
  destruct r as [a|]; [|done]. cbn [deref].
  destruct (h !! a) as [reg|] eqn:Hlook; [|done].
  rewrite (lookup_weaken h h' a reg Hlook Hsub), !result_bind_ok. apply IH.
Qed.

End WalkFrame.

(** X4: [compute_wrapped_radius] never reads the top-level region: rewriting
    that region (its radius, as it grows or shrinks, or its parent) leaves
    the result as it was, and [local_radius] is the new radius of the region
    shifted by the same amount. *)
Theorem compute_wrapped_radius_ignores_top (fuel : nat) (h : region_store)
    (n : DetectorNode) (a : positive) (reg : GraphFillRegion) :
  region_that_arrived_top n = Some a →
  compute_wrapped_radius fuel (<[a := reg]> h) n = compute_wrapped_radius fuel h n
  ∧ local_radius fuel (<[a := reg]> h) n
    = (w ← compute_wrapped_radius fuel h n ; Ok (varying_add (radius reg) w)).
Proof.
  intros Htop.
  assert (compute_wrapped_radius fuel (<[a := reg]> h) n = compute_wrapped_radius fuel h n)
    as Hcwr.
  { unfold compute_wrapped_radius. destruct (reached_from_source n); [|done].
    by rewrite Htop, wrapped_radius_loop_insert_top. }
  split; [done|]. unfold local_radius. rewrite Htop. cbn [deref].
  by rewrite lookup_insert_eq, result_bind_ok, Hcwr.
Qed.

Lemma compute_wrapped_radius_ignores_top_witness :
  compute_wrapped_radius 2
    (<[3%positive := {| radius := {| y_intercept := 100; slope := -1 |};
                        blossom_parent := Some 1%positive |}]> Samples.nested_store)
    Samples.owned_node
  = compute_wrapped_radius 2 Samples.nested_store Samples.owned_node
  ∧ local_radius 2
      (<[3%positive := {| radius := {| y_intercept := 100; slope := -1 |};
                          blossom_parent := Some 1%positive |}]> Samples.nested_store)
      Samples.owned_node
    = (w ← compute_wrapped_radius 2 Samples.nested_store Samples.owned_node ;
       Ok (varying_add {| y_intercept := 100; slope := -1 |} w)).
Proof.
  apply (compute_wrapped_radius_ignores_top 2 Samples.nested_store Samples.owned_node
           3%positive
           {| radius := {| y_intercept := 100; slope := -1 |};
              blossom_parent := Some 1%positive |}).
  reflexivity.
Defined.

(** X5: the queries read only the regions they walk: a value returned by
    [compute_wrapped_radius] or [local_radius] in a store is returned in
    every store that extends it with further regions. *)
Theorem local_radius_store_extension (fuel : nat) (h h' : region_store) (n : DetectorNode) :
  h ⊆ h' →
  (∀ w : Z, compute_wrapped_radius fuel h n = Ok w →
            compute_wrapped_radius fuel h' n = Ok w)
  ∧ (∀ v : Varying32, local_radius fuel h n = Ok v → local_radius fuel h' n = Ok v).
Proof.
  intros Hsub.
  assert (∀ w : Z, compute_wrapped_radius fuel h n = Ok w →
                   compute_wrapped_radius fuel h' n = Ok w) as Hcwr.
  { intros w. unfold compute_wrapped_radius. destruct (reached_from_source n); [|done].
    destruct (wrapped_radius_loop fuel h _ _ 0 0) as [res|e] eqn:Hloop; [|done].
    by rewrite (wrapped_radius_loop_weaken h h' _ _ fuel 0 0%nat res Hsub Hloop). }
  split; [done|]. intros v. unfold local_radius.
  destruct (region_that_arrived_top n) as [a|]; [|done]. cbn [deref].
  destruct (h !! a) as [top|] eqn:Hlook; [|done].
  rewrite (lookup_weaken h h' a top Hlook Hsub), !result_bind_ok.
  destruct (compute_wrapped_radius fuel h n) as [w|e] eqn:Hw; [|done].
  by rewrite (Hcwr w eq_refl).
Qed.

Lemma local_radius_store_extension_witness :
  (∀ w : Z, compute_wrapped_radius 2 Samples.nested_store Samples.owned_node = Ok w →
            compute_wrapped_radius 2
              (<[9%positive := {| radius := Varying32_zero; blossom_parent := None |}]>
                 Samples.nested_store) Samples.owned_node = Ok w)
  ∧ (∀ v : Varying32, local_radius 2 Samples.nested_store Samples.owned_node = Ok v →
       local_radius 2
         (<[9%positive := {| radius := Varying32_zero; blossom_parent := None |}]>
            Samples.nested_store) Samples.owned_node = Ok v).
Proof.
  apply (local_radius_store_extension 2 Samples.nested_store
           (<[9%positive := {| radius := Varying32_zero; blossom_parent := None |}]>
              Samples.nested_store) Samples.owned_node).
  apply insert_subseteq. vm_compute. reflexivity.
Defined.

(** X6: when the sum of the frozen radii walked less the arrival radius fits
    in 32 bits, [compute_wrapped_radius] on a reached node returns exactly
    that integer: the wrap-around of the running total plays no part in the
    result. *)
Theorem compute_wrapped_radius_exact (fuel : nat) (h : region_store) (n : DetectorNode)
    (path : list GraphFillRegion) :
  reached_from_source n ≠ None →
  blossom_chain h (region_that_arrived_top n) (region_that_arrived n) path →
  (length path ≤ fuel)%nat →
  Int32.in_range (frozen_radii path - radius_of_arrival n) →
  compute_wrapped_radius fuel h n = Ok (frozen_radii path - radius_of_arrival n).
Proof.
  intros Hreached Hc Hfuel Hrange.
  rewrite (compute_wrapped_radius_chain h n path) by done.
  by rewrite Int32Facts.wrap_small.
Qed.

Lemma compute_wrapped_radius_exact_witness :
  compute_wrapped_radius 2 Samples.nested_store Samples.owned_node = Ok (10 + (4 + 0) - 3).
Proof.
  apply (compute_wrapped_radius_exact 2 Samples.nested_store Samples.owned_node
           _ ltac:(discriminate) nested_store_chain).
  - simpl. lia.
  - unfold Int32.in_range, Int32.half_modulus. simpl. lia.
Defined.

(** ** Owners, resets and the adjacency scan together *)

(** X7: [has_same_owner_as] is an equivalence on detector nodes: every node
    has the same owner as itself, the test is symmetric, and it is
    transitive. *)
Theorem has_same_owner_as_equivalence :
  (∀ n : DetectorNode, has_same_owner_as n n = true)
  ∧ (∀ n other : DetectorNode, has_same_owner_as n other = has_same_owner_as other n)
  ∧ (∀ n1 n2 n3 : DetectorNode,
       has_same_owner_as n1 n2 = true → has_same_owner_as n2 n3 = true →
       has_same_owner_as n1 n3 = true).
Proof.
  unfold has_same_owner_as. split_and!.
  - intros n. by apply bool_decide_eq_true.
  - intros n other. apply bool_decide_ext. split; congruence.
  - intros n1 n2 n3 H12%bool_decide_eq_true H23%bool_decide_eq_true.
    apply bool_decide_eq_true. congruence.
Qed.

(** X8: [reset] is idempotent, and a reset node shares its owner with a node
    exactly when that node has no top-level region: it no longer counts as
    owned together with any node that is still owned, and it does with every
    other reset node. *)
Theorem reset_then_has_same_owner_as (n other : DetectorNode) :
  reset (reset n) = reset n
  ∧ (has_same_owner_as (reset n) other = true ↔ region_that_arrived_top other = None)
  ∧ (has_same_owner_as other (reset n) = true ↔ region_that_arrived_top other = None)
  ∧ has_same_owner_as (reset n) (reset other) = true.
Proof.
  unfold has_same_owner_as. split_and!; [done | | | done].
  - rewrite bool_decide_eq_true. cbn. split; congruence.
  - rewrite bool_decide_eq_true. cbn. split; congruence.
Qed.

Lemma index_of_neighbor_first (ns : list node_ptr) (target : node_ptr) (i k : nat) :
  target ∈ ns →
  ns !! k = Some target →
  (∀ j : nat, (j < k)%nat → ns !! j ≠ Some target) →
  index_of_neighbor_from i ns target = Ok (i + k)%nat.
Proof.
  intros Hin Hk Hfirst.
  destruct (index_of_neighbor_from_found ns target i Hin) as (k' & Hres & Hk' & Hfirst').
  rewrite Hres. do 2 f_equal.
  destruct (Nat.lt_trichotomy k' k) as [Hlt|[->|Hgt]]; [|done|].
  - by destruct (Hfirst k' Hlt).
  - by destruct (Hfirst' k Hgt).
Qed.

(** X9: looking a neighbour up by position and asking for its index is a
    round trip: for the pointer at position [k], [index_of_neighbor] returns a
    position [j ≤ k] holding the same pointer, and [j = k] when the adjacency
    list has no duplicate (on a list with parallel edges it is the first of
    them). *)
Theorem index_of_neighbor_round_trip (n : DetectorNode) (k : nat) (target : node_ptr) :
  neighbors n !! k = Some target →
  ∃ j : nat,
    index_of_neighbor n target = Ok j
    ∧ (j ≤ k)%nat
    ∧ neighbors n !! j = Some target
    ∧ (NoDup (neighbors n) → j = k).
Proof.
  intros Hk.
  assert (target ∈ neighbors n) as Hin by (apply list_elem_of_lookup; eauto).
  destruct (index_of_neighbor_from_found _ _ 0%nat Hin) as (j & Hres & Hj & Hfirst).
  exists j. split_and!; [done | | done |].
  - destruct (decide (j ≤ k)%nat) as [|Hgt]; [done|].
    destruct (Hfirst k); [lia | done].
  - intros Hnodup. by apply (NoDup_lookup (neighbors n) j k target).
Qed.

Lemma index_of_neighbor_round_trip_witness :
  ∃ j : nat,
    index_of_neighbor Samples.stray_node (Some 8%positive) = Ok j
    ∧ (j ≤ 1)%nat
    ∧ neighbors Samples.stray_node !! j = Some (Some 8%positive)
    ∧ (NoDup (neighbors Samples.stray_node) → j = 1%nat).
Proof.
  apply (index_of_neighbor_round_trip Samples.stray_node 1 (Some 8%positive)).
  reflexivity.
Defined.

(** X10: what [index_of_neighbor] returns determines the adjacency list
    around the answer: it returns [k] exactly when position [k] is the first
    one holding [target], so [k] is within bounds; and it fails exactly when
    no position holds [target], always with the invalid-argument error. *)
Theorem index_of_neighbor_characterised (n : DetectorNode) (target : node_ptr) :
  (∀ k : nat,
     index_of_neighbor n target = Ok k
     ↔ neighbors n !! k = Some target
       ∧ ∀ j : nat, (j < k)%nat → neighbors n !! j ≠ Some target)
  ∧ (∀ k : nat, index_of_neighbor n target = Ok k → (k < length (neighbors n))%nat)
  ∧ (∀ e : error,
       index_of_neighbor n target = Err e
       ↔ e = InvalidArgument "Failed to find neighbor." ∧ target ∉ neighbors n).
Proof.
  assert (∀ k : nat,
            index_of_neighbor n target = Ok k →
            neighbors n !! k = Some target
            ∧ ∀ j : nat, (j < k)%nat → neighbors n !! j ≠ Some target) as Hsound.
  { intros k Hres. destruct (decide (target ∈ neighbors n)) as [Hin|Hnin].
    - destruct (index_of_neighbor_from_found _ _ 0%nat Hin) as (i & Hres' & Hi & Hfirst).
      unfold index_of_neighbor in Hres. rewrite Hres' in Hres.
      injection Hres as <-. by cbn.
    - unfold index_of_neighbor in Hres.
      by rewrite (index_of_neighbor_from_missing _ _ 0%nat Hnin) in Hres. }
  split_and!.
  - intros k. split; [apply Hsound|]. intros [Hk Hfirst].
    apply (index_of_neighbor_first (neighbors n) target 0 k); [|done..].
    apply list_elem_of_lookup; eauto.
  - intros k Hres. destruct (Hsound k Hres) as [Hk _]. by apply lookup_lt_Some in Hk.
  - intros e. split.
    + intros Hres. destruct (decide (target ∈ neighbors n)) as [Hin|Hnin].
      * destruct (index_of_neighbor_from_found _ _ 0%nat Hin) as (i & Hres' & _).
        unfold index_of_neighbor in Hres. by rewrite Hres' in Hres.
      * unfold index_of_neighbor in Hres.
        rewrite (index_of_neighbor_from_missing _ _ 0%nat Hnin) in Hres.
        by injection Hres as <-.
    + intros [-> Hnin]. by apply index_of_neighbor_from_missing.
Qed.

(** ** The depth of a hierarchy and the size of the store *)
Section DepthBound.

Context (h : region_store).
Implicit Types (top r : region_ptr) (path : list GraphFillRegion).

(** The regions of a chain sit at pairwise distinct addresses of the store:
    one met twice would start a chain to [top] shorter than itself. *)
Lemma blossom_chain_addresses top r path :
  blossom_chain h top r path →
  ∃ addrs : list positive,
    length addrs = length path
    ∧ NoDup addrs
    ∧ ∀ a : positive, a ∈ addrs →
        is_Some (h !! a)
        ∧ ∃ path', blossom_chain h top (Some a) path' ∧ (length path' ≤ length path)%nat.
Proof.
  induction 1 as [|a reg path Hne Hlook Hc (addrs & Hlen & Hnodup & Hin)].
  - exists []. split_and!; [done | constructor |]. intros a Ha. by apply elem_of_nil in Ha.
  - assert (blossom_chain h top (Some a) (reg :: path)) as Hhere by by constructor.
    exists (a :: addrs). split_and!.
    + cbn. by rewrite Hlen.
    + constructor; [|done]. intros Ha.
      destruct (Hin a Ha) as (_ & path' & Hc' & Hshort).
      pose proof (blossom_chain_functional h _ _ _ _ Hc' Hhere) as ->.
      cbn in Hshort. lia.
    + intros a' [->|Ha']%elem_of_cons.
      * split; [by eexists|]. exists (reg :: path). split; [done | lia].
      * destruct (Hin a' Ha') as (Hsome & path' & Hc' & Hshort).
        split; [done|]. exists path'. split; [done | cbn; lia].
Qed.

Lemma blossom_chain_length_le_size top r path :
  blossom_chain h top r path → (length path ≤ size h)%nat.
Proof.
  intros Hc. destruct (blossom_chain_addresses top r path Hc) as (addrs & Hlen & Hnodup & Hin).
  rewrite <- Hlen, <- (size_dom (D := gset positive)).
  rewrite <- (size_list_to_set (C := gset positive) addrs Hnodup).
  apply subseteq_size. intros a Ha%elem_of_list_to_set.
  apply elem_of_dom. by destruct (Hin a Ha).
Qed.

End DepthBound.

(** X11: the nesting depth of a node is at most the number of regions in
    the store, so that many iterations are always enough: when the top region
    is met from the immediate region, [compute_wrapped_radius] with as much
    fuel as the store has regions returns. *)
Theorem nesting_depth_bounded_by_store (h : region_store) (n : DetectorNode)
    (path : list GraphFillRegion) :
  blossom_chain h (region_that_arrived_top n) (region_that_arrived n) path →
  (length path ≤ size h)%nat
  ∧ ∃ w : Z, compute_wrapped_radius (size h) h n = Ok w.
Proof.
  intros Hc. pose proof (blossom_chain_length_le_size h _ _ _ Hc) as Hlen.
  split; [done|]. unfold compute_wrapped_radius.
  destruct (reached_from_source n); [|by eexists].
  rewrite (wrapped_radius_loop_chain h _ _ path) by done. by eexists.
Qed.

Lemma nesting_depth_bounded_by_store_witness :
  (2 ≤ size Samples.nested_store)%nat
  ∧ ∃ w : Z,
      compute_wrapped_radius (size Samples.nested_store) Samples.nested_store
        Samples.owned_node = Ok w.
Proof.
  apply (nesting_depth_bounded_by_store Samples.nested_store Samples.owned_node _
           nested_store_chain).
Defined.

(** X12: [local_radius] tells an unreached node by its top pointer alone.
    When the top pointer is null it returns the zero sentinel even on a node
    with a source; when [reached_from_source] is null but the top pointer is
    live, it returns the radius of that region as it stands, with no walk
    through the hierarchy: no fuel is used and [region_that_arrived] is not
    read. *)
Theorem local_radius_keyed_on_top (fuel : nat) (h : region_store) (n : DetectorNode) :
  (region_that_arrived_top n = None → local_radius fuel h n = Ok Varying32_zero)
  ∧ (∀ root : GraphFillRegion,
       reached_from_source n = None →
       deref h (region_that_arrived_top n) = Ok root →
       ∃ v : Varying32,
         local_radius fuel h n = Ok v
         ∧ slope v = slope (radius root)
         ∧ ∀ t : Z, get_distance_at_time v t = get_distance_at_time (radius root) t).
Proof.
  split.
  - intros Htop. unfold local_radius. by rewrite Htop.
  - intros root Hnone Hroot. unfold local_radius, compute_wrapped_radius.
    destruct (region_that_arrived_top n) as [a|]; [|done].
    rewrite Hroot, Hnone, !result_bind_ok. eexists. split_and!; [done..|].
    intros t. rewrite varying_add_at_time, Z.add_0_r.
    unfold get_distance_at_time. apply Int32Facts.wrap_idemp.
Qed.
